(** * The game handler of the Mana World server

    A shallow embedding of [src/gamehandler.cpp]: the rendezvous between
    the magic tokens handed over by the account server and the clients that
    present them to the game server, the per-tick expiry of pending logins,
    the message dispatch of [GameHandler::processMessage] and the two
    delivery routines [sayAround] and [sendTo].

    The two file-level [std::map]s, the [GameClient] objects, the list of
    connected computers and the messages handed to [NetComputer::send] are
    the fields of one explicit state that every routine transforms. *)

From stdpp Require Import base gmap strings list sorting.
From Stdlib Require Import ZArith.

(** ** Pointers

    A [GameClient *] (equally [NetComputer *]) is the address of the object.
    A [PlayerPtr] is a counted pointer that may be null: [None], or the
    address of the [Player] it shares. *)

Abbreviation GameClientPtr := nat (only parsing).
Abbreviation Player := nat (only parsing).
Abbreviation PlayerPtr := (option nat) (only parsing).

(** ** Protocol constants *)

(** Modelled from the spec: the message identifiers of [defines.h], which is
    not among the sources.  Only the names that [gamehandler.cpp] mentions
    are listed; their numeric values are left open and every other 16-bit
    identifier a peer may send is [MSG_OTHER]. *)
Inductive MessageId : Set :=
  | PGMSG_CONNECT
  | PGMSG_SAY
  | PGMSG_PICKUP
  | PGMSG_USE_ITEM
  | PGMSG_WALK
  | PGMSG_EQUIP
  | GPMSG_CONNECT_RESPONSE
  | GPMSG_SAY
  | GPMSG_PICKUP_RESPONSE
  | GPMSG_USE_RESPONSE
  | GPMSG_EQUIP_RESPONSE
  | XXMSG_INVALID
  | MSG_OTHER (raw : Z).

#[global] Instance MessageId_eq_dec : EqDecision MessageId.
Proof. solve_decision. Defined.

(** Modelled from the spec: the two status bytes of [defines.h]. *)
Inductive ErrorMessage : Set :=
  | ERRMSG_OK
  | ERRMSG_FAILURE.

#[global] Instance ErrorMessage_eq_dec : EqDecision ErrorMessage.
Proof. solve_decision. Defined.

(** ** Machine integers *)

(** The value an [int] holds after a computation whose mathematical result
    is [z]: reduction into [-2^31, 2^31). *)
Definition to_int (z : Z) : Z := ((z + 2 ^ 31) mod 2 ^ 32 - 2 ^ 31)%Z.

(** Conversion to [unsigned]. *)
Definition to_unsigned (z : Z) : Z := (z mod 2 ^ 32)%Z.

(** Conversion to [char]. *)
Definition to_char (z : Z) : Z := ((z + 2 ^ 7) mod 2 ^ 8 - 2 ^ 7)%Z.

(** ** Outgoing messages *)

(** Modelled from the spec: [MessageOut] of [messageout.h], which is not
    among the sources.  A message under construction is the sequence of the
    values written to it so far. *)
Inductive OutField : Set :=
  | OShort (id : MessageId)
  | OByte (status : ErrorMessage)
  | OString (s : string).

#[global] Instance OutField_eq_dec : EqDecision OutField.
Proof. solve_decision. Defined.

Abbreviation MessageOut := (list OutField) (only parsing).

Definition writeShort (id : MessageId) (m : MessageOut) : MessageOut :=
  m ++ [OShort id].

Definition writeByte (status : ErrorMessage) (m : MessageOut) : MessageOut :=
  m ++ [OByte status].

Definition writeString (s : string) (m : MessageOut) : MessageOut :=
  m ++ [OString s].

(** [MessageOut msg(id)]: the constructor that starts with the identifier. *)
Definition MessageOut_with_id (id : MessageId) : MessageOut :=
  writeShort id [].

Definition fieldSize (f : OutField) : nat :=
  match f with
  | OShort _ => 2
  | OByte _ => 1
  | OString s => String.length s
  end.

Definition getDataSize (m : MessageOut) : nat :=
  foldr (λ f n, fieldSize f + n) 0 m.

(** ** Collaborators *)

(** Modelled from the spec: [MessageIn] of [messagein.h], which is not among
    the sources.  A message has an identifier and a read cursor; every read
    yields a value and the message with the cursor advanced.  The argument
    of [readString] is the length, [-1] being the header's default. *)
Class MessageReader (M : Type) := {
  getId : M → MessageId;
  readByte : M → Z * M;
  readShort : M → Z * M;
  readLong : M → Z * M;
  readString : Z → M → string * M
}.

(** Modelled from the spec: the capability surface of [Player] (name, map
    id, coordinates, inventory, destination, equipment), which lives outside
    the sources.  [W] is the store of all [Player] objects; the address of
    a [Player] selects one of them. *)
Class PlayerStore (W : Type) := {
  getName : W → Player → string;
  getMapId : W → Player → Z;
  getXY : W → Player → Z * Z;
  addInventory : Player → Z → W → W;
  hasItem : W → Player → Z → bool;
  setDestination : Player → Z → Z → W → W;
  equip : Player → Z → Z → W → bool * W
}.

(** ** Iterating a [std::map] *)

(** A [std::map<std::string, V>] is a finite map; [begin()] to [end()]
    visits its entries by ascending key. *)
Definition key_le {V} (a b : string * V) : Prop :=
  String.leb a.1 b.1 = true.

#[global] Instance key_le_dec {V} : RelDecision (@key_le V).
Proof. intros a b. unfold key_le. apply _. Defined.

Definition in_order {V} (m : gmap string V) : list (string * V) :=
  merge_sort key_le (map_to_list m).

(** [std::map::insert]: nothing happens when the key is already there. *)
Definition map_insert_new {V} (k : string) (v : V) (m : gmap string V)
  : gmap string V :=
  match m !! k with
  | Some _ => m
  | None => <[k := v]> m
  end.

(** The first entry, in iteration order, whose value is [computer]. *)
Definition find_client (computer : GameClientPtr)
    (m : gmap string GameClientPtr) : option (nat * (string * nat)) :=
  list_find (λ kv, kv.2 = computer) (in_order m).

(** ** State *)

Record GamePendingLogin : Set := {
  character : PlayerPtr;
  timeout : Z
}.

#[global] Instance GamePendingLogin_eq_dec : EqDecision GamePendingLogin.
Proof. solve_decision. Defined.

Record State {W : Type} : Type := {
  (** [static GamePendingLogins pendingLogins] *)
  pendingLogins : gmap string GamePendingLogin;
  (** [static GamePendingClients pendingClients] *)
  pendingClients : gmap string GameClientPtr;
  (** [GameClient::getCharacter] of every client object: the lookup at its
      address is its [PlayerPtr] *)
  characters : gmap GameClientPtr Player;
  (** [ConnectionHandler::clients] *)
  clients : list GameClientPtr;
  (** what has been handed to [NetComputer::send], oldest first *)
  sent : list (GameClientPtr * MessageOut);
  (** the [Player] objects *)
  world : W
}.
Arguments State : clear implicits.

Section GameHandler.
Context {W M : Type} `{!PlayerStore W} `{!MessageReader M}.
(** [areAround] of [map.h]: the proximity test on two coordinate pairs. *)
Context (areAround : Z → Z → Z → Z → bool).

Implicit Types (s : State W) (token : string) (ch : PlayerPtr).
Implicit Types (computer comp : GameClientPtr) (message : M).

Definition with_pendingLogins
    (f : gmap string GamePendingLogin → gmap string GamePendingLogin) s
  : State W :=
  {| pendingLogins := f (pendingLogins s);
     pendingClients := pendingClients s;
     characters := characters s;
     clients := clients s;
     sent := sent s;
     world := world s |}.

Definition with_pendingClients
    (f : gmap string GameClientPtr → gmap string GameClientPtr) s
  : State W :=
  {| pendingLogins := pendingLogins s;
     pendingClients := f (pendingClients s);
     characters := characters s;
     clients := clients s;
     sent := sent s;
     world := world s |}.

Definition with_characters
    (f : gmap GameClientPtr Player → gmap GameClientPtr Player) s
  : State W :=
  {| pendingLogins := pendingLogins s;
     pendingClients := pendingClients s;
     characters := f (characters s);
     clients := clients s;
     sent := sent s;
     world := world s |}.

Definition with_clients
    (f : list GameClientPtr → list GameClientPtr) s : State W :=
  {| pendingLogins := pendingLogins s;
     pendingClients := pendingClients s;
     characters := characters s;
     clients := f (clients s);
     sent := sent s;
     world := world s |}.

Definition with_world (f : W → W) s : State W :=
  {| pendingLogins := pendingLogins s;
     pendingClients := pendingClients s;
     characters := characters s;
     clients := clients s;
     sent := sent s;
     world := f (world s) |}.

(** Modelled from the spec: [GameClient::setCharacter] of [gameclient.h],
    which is not among the sources.  [computer->setCharacter(ch)] binds the
    connection to [ch]: afterwards [getCharacter] yields [ch]. *)
Definition setCharacter computer ch s : State W :=
  with_characters (partial_alter (λ _, ch) computer) s.

(** Modelled from the spec: [NetComputer::send] of [netcomputer.h], which
    is not among the sources.  [computer->send(msg)] delivers [msg] to the
    peer, fire and forget; the model records the delivery. *)
Definition send computer (msg : MessageOut) s : State W :=
  {| pendingLogins := pendingLogins s;
     pendingClients := pendingClients s;
     characters := characters s;
     clients := clients s;
     sent := sent s ++ [(computer, msg)];
     world := world s |}.

(** The reply both rendezvous paths build: [writeShort] of the response
    identifier, then [writeByte] of the status. *)
Definition connect_response : MessageOut :=
  writeByte ERRMSG_OK (writeShort GPMSG_CONNECT_RESPONSE []).

(** ** [registerGameClient] *)
Definition registerGameClient token ch s : State W :=
  match pendingClients s !! token with
  | Some computer =>
      let s := setCharacter computer ch s in
      let s := with_pendingClients (delete token) s in
      send computer connect_response s
  | None =>
      let p := {| character := ch; timeout := 300 |} in
      with_pendingLogins (map_insert_new token p) s
  end.

(** ** [GameHandler::removeOutdatedPending]

    Every entry is visited once: its timeout is pre-decremented and the
    entry is erased when the new value is not positive. *)
Definition outdate (p : GamePendingLogin) : option GamePendingLogin :=
  let t := to_int (timeout p - 1) in
  if decide (t ≤ 0)%Z then None
  else Some {| character := character p; timeout := t |}.

Definition removeOutdatedPending s : State W :=
  with_pendingLogins (omap outdate) s.

(** ** [GameHandler::computerDisconnected]

    The loop erases the first entry that points to [computer] and stops;
    then the object is deleted. *)
Definition computerDisconnected computer s : State W :=
  let s :=
    match find_client computer (pendingClients s) with
    | Some (_, (k, _)) => with_pendingClients (delete k) s
    | None => s
    end in
  with_characters (delete computer) s.

(** ** [GameHandler::sayAround] *)
Definition sayAround_visit (msg : MessageOut) (speakerMapId : Z)
    (speakerXY : Z * Z) s (i : GameClientPtr) : State W :=
  match characters s !! i with
  | None => s
  | Some listener =>
      if decide (getMapId (world s) listener ≠ speakerMapId) then s
      else
        let listenerXY := getXY (world s) listener in
        if areAround listenerXY.1 listenerXY.2 speakerXY.1 speakerXY.2
        then send i msg s
        else s
  end.

(** The caller guarantees that [computer] has a character; with a null
    one the source dereferences it, and the model leaves the state
    alone. *)
Definition sayAround computer (text : string) s : State W :=
  match characters s !! computer with
  | None => s
  | Some beingPtr =>
      let msg := MessageOut_with_id GPMSG_SAY in
      let msg := writeString (getName (world s) beingPtr) msg in
      let msg := writeString text msg in
      let speakerMapId := getMapId (world s) beingPtr in
      let speakerXY := getXY (world s) beingPtr in
      foldl (sayAround_visit msg speakerMapId speakerXY) s (clients s)
  end.

(** ** [GameHandler::sendTo] *)
Definition sendTo (beingPtr : PlayerPtr) (msg : MessageOut) s
  : State W :=
  match list_find (λ i, characters s !! i = beingPtr) (clients s) with
  | Some (_, i) => send i msg s
  | None => s
  end.

(** ** [GameHandler::processMessage]

    [handle_bound] is the [switch] that runs once the computer has a
    character: it yields the [result] message built so far and the new
    state.  The warning logged in the [default] case has no effect on the
    state and is left out. *)
Definition handle_bound computer (ch : Player) message s
  : MessageOut * State W :=
  match getId message with
  | PGMSG_SAY =>
      let say := (readString (-1) message).1 in
      ([], sayAround computer say s)
  | PGMSG_PICKUP =>
      let itemId := to_unsigned (readLong message).1 in
      let s := with_world (addInventory ch itemId) s in
      (writeByte ERRMSG_OK (writeShort GPMSG_PICKUP_RESPONSE []), s)
  | PGMSG_USE_ITEM =>
      let itemId := to_unsigned (readLong message).1 in
      let result := writeShort GPMSG_USE_RESPONSE [] in
      if hasItem (world s) ch itemId
      then (writeByte ERRMSG_OK result, s)
      else (writeByte ERRMSG_FAILURE result, s)
  | PGMSG_WALK =>
      let '(x, message) := readShort message in
      let '(y, _) := readShort message in
      ([], with_world (setDestination ch (to_unsigned x) (to_unsigned y)) s)
  | PGMSG_EQUIP =>
      let '(itemId, message) := readLong message in
      let '(slot, _) := readByte message in
      let result := writeShort GPMSG_EQUIP_RESPONSE [] in
      let '(ok, w) := equip ch (to_int itemId) (to_char slot) (world s) in
      (writeByte (if ok then ERRMSG_OK else ERRMSG_FAILURE) result,
       with_world (λ _, w) s)
  | _ => (writeShort XXMSG_INVALID [], s)
  end.

Definition processMessage comp message s : State W :=
  match characters s !! comp with
  | None =>
      if decide (getId message ≠ PGMSG_CONNECT) then s
      else
        let magic_token := (readString 32 message).1 in
        match pendingLogins s !! magic_token with
        | None =>
            match find_client comp (pendingClients s) with
            | Some _ => s
            | None =>
                with_pendingClients (map_insert_new magic_token comp) s
            end
        | Some p =>
            let s := setCharacter comp (character p) s in
            let s := with_pendingLogins (delete magic_token) s in
            send comp connect_response s
        end
  | Some ch =>
      let '(result, s) := handle_bound comp ch message s in
      if decide (0 < getDataSize result) then send comp result s else s
  end.

(** ** The connection registry *)

(** [GameHandler::computerConnected]: [new GameClient(this, peer)] yields an
    object at some address [fresh]; its character starts out null. *)
Definition computerConnected (fresh : GameClientPtr) s : State W :=
  with_characters (delete fresh) s.

(** Modelled from the spec: the part of [ConnectionHandler::process] that
    reacts to transport events; [net/connectionhandler.hpp] is not among the
    sources.  A connection is created on transport accept and joins
    [clients]; on transport disconnect the handler is told and the
    connection leaves [clients]. *)
Definition peerConnected (fresh : GameClientPtr) s : State W :=
  with_clients (λ l, l ++ [fresh]) (computerConnected fresh s).

Definition peerDisconnected computer s : State W :=
  with_clients (filter (λ i, i ≠ computer)) (computerDisconnected computer s).

(** ** Runs of the server

    The event loop is single-threaded: one transport event, one hand-over
    from the account server, one change the world makes to its [Player]s or
    one sweep of [GameHandler::process] at a time.  Messages and disconnects
    come from connected computers only, and a new object never shares its
    address with a live one. *)
Inductive step : State W → State W → Prop :=
  | step_connect fresh s :
      fresh ∉ clients s → step s (peerConnected fresh s)
  | step_disconnect computer s :
      computer ∈ clients s → step s (peerDisconnected computer s)
  | step_message comp message s :
      comp ∈ clients s → step s (processMessage comp message s)
  | step_register token ch s :
      step s (registerGameClient token ch s)
  | step_tick s :
      step s (removeOutdatedPending s)
  | step_world (f : W → W) s :
      step s (with_world f s).

(** The server starts with both maps empty and nobody connected. *)
Definition initial (w : W) : State W :=
  {| pendingLogins := ∅;
     pendingClients := ∅;
     characters := ∅;
     clients := [];
     sent := [];
     world := w |}.

Inductive reachable : State W → Prop :=
  | reachable_initial w : reachable (initial w)
  | reachable_step s s' : reachable s → step s s' → reachable s'.

(** [n] sweeps in a row. *)
Fixpoint ticks (n : nat) s : State W :=
  match n with
  | O => s
  | S n => ticks n (removeOutdatedPending s)
  end.

(** ** Vocabulary of the specification *)

(** No token has a pending login and a pending client at once. *)
Definition exclusive s : Prop :=
  ∀ token, pendingLogins s !! token = None ∨ pendingClients s !! token = None.

(** No computer is the value of two entries of [pendingClients]. *)
Definition deduplicated s : Prop :=
  ∀ k1 k2 computer,
    pendingClients s !! k1 = Some computer →
    pendingClients s !! k2 = Some computer → k1 = k2.

(** [computer] is the value of some entry of [pendingClients]. *)
Definition waiting computer s : Prop :=
  ∃ token, pendingClients s !! token = Some computer.

(** Every pending login still has between 1 and 300 ticks to live. *)
Definition timeouts_in_range s : Prop :=
  ∀ token p, pendingLogins s !! token = Some p → (1 ≤ timeout p ≤ 300)%Z.

(** The objects the maps point to are alive, and each is listed once. *)
Definition registry_consistent s : Prop :=
  NoDup (clients s)
  ∧ (∀ token computer,
       pendingClients s !! token = Some computer → computer ∈ clients s)
  ∧ (∀ computer, is_Some (characters s !! computer) → computer ∈ clients s).

(** A connect message carrying [token]. *)
Definition is_connect token message : Prop :=
  getId message = PGMSG_CONNECT ∧ (readString 32 message).1 = token.

(** How often [msg] was handed to [computer]'s [send]. *)
Definition deliveries computer (msg : MessageOut)
    (l : list (GameClientPtr * MessageOut)) : nat :=
  length (filter (λ d, d = (computer, msg)) l).

(** The listeners [sayAround] is meant to reach for a speaker at
    [speakerXY] on map [speakerMapId]. *)
Definition hears (speakerMapId : Z) (speakerXY : Z * Z) s
    (i : GameClientPtr) : Prop :=
  ∃ listener,
    characters s !! i = Some listener
    ∧ getMapId (world s) listener = speakerMapId
    ∧ areAround (getXY (world s) listener).1 (getXY (world s) listener).2
        speakerXY.1 speakerXY.2 = true.

(** [s'] differs from [s] in the sent messages at most. *)
Definition only_sends s s' : Prop :=
  pendingLogins s' = pendingLogins s
  ∧ pendingClients s' = pendingClients s
  ∧ characters s' = characters s
  ∧ clients s' = clients s
  ∧ world s' = world s.

(** [s'] differs from [s] in the sent messages and the players at most. *)
Definition keeps_sessions s s' : Prop :=
  pendingLogins s' = pendingLogins s
  ∧ pendingClients s' = pendingClients s
  ∧ characters s' = characters s
  ∧ clients s' = clients s.

#[global] Instance hears_dec mid xy s i : Decision (hears mid xy s i).
Proof.
  unfold hears. destruct (characters s !! i) as [l|].
  - destruct (decide (getMapId (world s) l = mid));
      [destruct (areAround (getXY (world s) l).1 (getXY (world s) l).2 xy.1 xy.2) eqn:E|].
    + left. eauto.
    + right. intros (l' & [= <-] & _ & Hn). congruence.
    + right. intros (l' & [= <-] & Hn & _). done.
  - right. by intros (l' & [=] & _).
Defined.

(** The message [sayAround] builds for a speaker called [name]. *)
Definition say_message (name text : string) : MessageOut :=
  writeString text (writeString name (MessageOut_with_id GPMSG_SAY)).

(** A step after which [comp] is still connected, and a stretch of a run
    made of such steps: the life of one connection. *)
Definition step_keeping comp s s' : Prop :=
  step s s' ∧ comp ∈ clients s'.

Definition while_connected comp : State W → State W → Prop :=
  rtc (step_keeping comp).



(** The identifiers the [switch] of [processMessage] has a case for. *)
Definition handled_ids : list MessageId :=
  [PGMSG_SAY; PGMSG_PICKUP; PGMSG_USE_ITEM; PGMSG_WALK; PGMSG_EQUIP].

End GameHandler.

(** ** A concrete world and wire format

    One instance of each collaborator, small enough to run the handler on:
    it backs the worked examples at the end of the file. *)
Module Sample.

Record PlayerData : Set := {
  name : string;
  mapId : Z;
  xy : Z * Z;
  destination : Z * Z;
  inventory : list Z
}.

Definition nobody : PlayerData :=
  {| name := EmptyString; mapId := 0; xy := (0, 0)%Z; destination := (0, 0)%Z;
     inventory := [] |}.

Definition World : Type := list PlayerData.

Definition player (w : World) (p : nat) : PlayerData := default nobody (w !! p).

Definition give (itemId : Z) (d : PlayerData) : PlayerData :=
  {| name := name d; mapId := mapId d; xy := xy d;
     destination := destination d; inventory := itemId :: inventory d |}.

Definition head_for (x y : Z) (d : PlayerData) : PlayerData :=
  {| name := name d; mapId := mapId d; xy := xy d;
     destination := (x, y); inventory := inventory d |}.

#[global] Instance world_store : PlayerStore World := {|
  getName w p := name (player w p);
  getMapId w p := mapId (player w p);
  getXY w p := xy (player w p);
  addInventory p itemId w := alter (give itemId) p w;
  hasItem w p itemId := bool_decide (itemId ∈ inventory (player w p));
  setDestination p x y w := alter (head_for x y) p w;
  equip p itemId slot w := (bool_decide (itemId ∈ inventory (player w p)), w)
|}.

(** A received message: the identifier, the string it carries and the
    numbers it carries, each in reading order. *)
Record Message : Set := {
  id : MessageId;
  text : string;
  numbers : list Z
}.

Definition read_number (m : Message) : Z * Message :=
  (default 0%Z (head (numbers m)),
   {| id := id m; text := text m; numbers := tail (numbers m) |}).

#[global] Instance message_reader : MessageReader Message := {|
  getId := id;
  readByte := read_number;
  readShort := read_number;
  readLong := read_number;
  readString _ m := (text m, {| id := id m; text := EmptyString; numbers := numbers m |})
|}.

Definition connect (token : string) : Message :=
  {| id := PGMSG_CONNECT; text := token; numbers := [] |}.

(** Two positions are around each other when neither coordinate differs by
    more than 10. *)
Definition near (x1 y1 x2 y2 : Z) : bool :=
  bool_decide (Z.abs (x1 - x2) ≤ 10 ∧ Z.abs (y1 - y2) ≤ 10)%Z.

(** Players 0 to 3: A and B side by side on map 1, C far away on map 1,
    D on map 2 where A stands. *)
Definition four_players : World :=
  [ {| name := "A"; mapId := 1; xy := (100, 100)%Z; destination := (0, 0)%Z;
       inventory := [] |};
    {| name := "B"; mapId := 1; xy := (101, 100)%Z; destination := (0, 0)%Z;
       inventory := [] |};
    {| name := "C"; mapId := 1; xy := (900, 900)%Z; destination := (0, 0)%Z;
       inventory := [] |};
    {| name := "D"; mapId := 2; xy := (100, 101)%Z; destination := (0, 0)%Z;
       inventory := [] |} ].

Definition start : State World := initial four_players.

(** One computer connected, nothing else. *)
Definition one_connected : State World := peerConnected 1 start.

(** Computer 1 presented token T4 before the account server announced it. *)
Definition one_waiting : State World :=
  processMessage near 1 (connect "T4") one_connected.

(** Token T3 was announced for player 2 and nobody presented it yet. *)
Definition one_announced : State World :=
  registerGameClient "T3" (Some 2) one_connected.

(** Computers 1 to 4 play A to D. *)
Definition bind (s : State World) (c : nat) : State World :=
  setCharacter (S c) (Some c) (peerConnected (S c) s).

Definition four_bound : State World := foldl bind start [0; 1; 2; 3].

(** A run in which computer 1, still waiting under T4, logs in as player 0
    with token T2, and the account server then announces T4 for player 1. *)
Definition late_announced : State World :=
  registerGameClient "T2" (Some 0) one_waiting.

Definition matched : State World :=
  processMessage near 1 (connect "T2") late_announced.

Definition rematched : State World :=
  registerGameClient "T4" (Some 1) matched.

(** Computer 1 logged in as player 0 with token T1 and waits for nothing. *)
Definition one_bound : State World :=
  processMessage near 1 (connect "T1")
    (registerGameClient "T1" (Some 0) one_connected).

(** Computers 1 and 2 are connected; computer 1 waits under T7. *)
Definition two_connected : State World := peerConnected 2 one_connected.

Definition first_waiting : State World :=
  processMessage near 1 (connect "T7") two_connected.


Definition pickup (itemId : Z) : Message :=
  {| id := PGMSG_PICKUP; text := EmptyString; numbers := [itemId] |}.

End Sample.

(** * Properties *)

(** ** Iteration order *)

Lemma elem_of_in_order {V} (m : gmap string V) (k : string) (v : V) :
  (k, v) ∈ in_order m ↔ m !! k = Some v.
Proof.
  unfold in_order. rewrite merge_sort_Permutation.
  apply elem_of_map_to_list.
Qed.

Lemma find_client_Some computer (m : gmap string nat) i k v :
  find_client computer m = Some (i, (k, v)) → v = computer ∧ m !! k = Some computer.
Proof.
  unfold find_client. intros Hf.
  apply list_find_Some in Hf as (Hi & Hv & _). simpl in Hv. subst v.
  split; [done|].
  apply elem_of_in_order. by eapply list_elem_of_lookup_2.
Qed.

Lemma find_client_None computer (m : gmap string nat) :
  find_client computer m = None ↔ ∀ k, m !! k ≠ Some computer.
Proof.
  unfold find_client. rewrite list_find_None, Forall_forall. split.
  - intros Hall k Hk. apply (Hall (k, computer)); [|done].
    by apply elem_of_in_order.
  - intros Hno [k v] Hin Hv. simpl in Hv. subst v.
    apply elem_of_in_order in Hin. by apply (Hno k).
Qed.

Lemma map_insert_new_lookup {V} (k k' : string) (v : V) (m : gmap string V) :
  map_insert_new k v m !! k' =
    if decide (k = k') then Some (default v (m !! k)) else m !! k'.
Proof.
  unfold map_insert_new. destruct (m !! k) as [v0|] eqn:Hk; simpl.
  - case_decide; [by subst|done].
  - rewrite lookup_insert. by case_decide.
Qed.

Lemma to_int_small (z : Z) : (- 2 ^ 31 ≤ z < 2 ^ 31)%Z → to_int z = z.
Proof.
  intros Hz. unfold to_int.
  rewrite Z.mod_small; lia.
Qed.

Section Properties.
Context {W M : Type} `{!PlayerStore W} `{!MessageReader M}.
Context (areAround : Z → Z → Z → Z → bool).

Implicit Types (s : State W) (token : string) (ch : PlayerPtr).
Implicit Types (computer comp : GameClientPtr) (message : M).

(** ** What the delivery routines leave alone *)

Lemma sayAround_visit_spec msg mid xy s i :
  let s' := sayAround_visit areAround msg mid xy s i in
  only_sends s s'
  ∧ sent s' = sent s ++ (if decide (hears areAround mid xy s i) then [(i, msg)] else []).
Proof.
  unfold sayAround_visit, only_sends, hears.
  destruct (decide _) as [(l & Hl & Hm & Ha)|Hn].
  - rewrite Hl. rewrite decide_False by (by intros Hne; apply Hne).
    rewrite Ha. done.
  - destruct (characters s !! i) as [l|] eqn:Hl; [|by rewrite app_nil_r].
    case_decide as Hm; [by rewrite app_nil_r|].
    destruct (areAround _ _ _ _) eqn:Ha; [|by rewrite app_nil_r].
    exfalso. apply Hn. exists l. split_and!; [done| |done].
    by destruct (decide (getMapId (world s) l = mid)).
Qed.

Lemma hears_only_sends mid xy s s' i :
  only_sends s s' → hears areAround mid xy s' i ↔ hears areAround mid xy s i.
Proof.
  intros (_ & _ & Hc & _ & Hw). unfold hears. by rewrite Hc, Hw.
Qed.

Lemma sayAround_loop_spec msg mid xy (l : list nat) s :
  let s' := foldl (sayAround_visit areAround msg mid xy) s l in
  only_sends s s'
  ∧ sent s' = sent s ++ ((λ i, (i, msg)) <$> filter (hears areAround mid xy s) l).
Proof.
  revert s. induction l as [|i l IH]; intros s; simpl.
  - by rewrite app_nil_r.
  - destruct (sayAround_visit_spec msg mid xy s i) as [Hframe Hsent].
    destruct (IH (sayAround_visit areAround msg mid xy s i)) as [Hframe' Hsent'].
    split.
    + unfold only_sends in *. destruct_and!. split_and!; congruence.
    + rewrite Hsent', Hsent, <- app_assoc. f_equal.
      rewrite filter_cons.
      rewrite (list_filter_iff _ (hears areAround mid xy s))
        by (intros j; by apply hears_only_sends).
      by destruct (decide (hears areAround mid xy s i)).
Qed.

Lemma sayAround_only_sends computer text s :
  only_sends s (sayAround areAround computer text s).
Proof.
  unfold sayAround. destruct (characters s !! computer); [|done].
  apply sayAround_loop_spec.
Qed.

Lemma handle_bound_keeps_sessions computer (p : nat) message s :
  keeps_sessions s (handle_bound areAround computer p message s).2.
Proof.
  unfold handle_bound, keeps_sessions.
  destruct (getId message); simpl; try done.
  - destruct (sayAround_only_sends computer (readString (-1) message).1 s)
      as (-> & -> & -> & -> & _). done.
  - by destruct (hasItem _ _ _).
  - destruct (readShort message) as [x m1]. by destruct (readShort m1).
  - destruct (readLong message) as [i m1]. destruct (readByte m1).
    by destruct (equip _ _ _ _).
Qed.

Lemma processMessage_bound comp (p : nat) message s :
  characters s !! comp = Some p →
  keeps_sessions s (processMessage areAround comp message s).
Proof.
  intros Hc. unfold processMessage. rewrite Hc.
  pose proof (handle_bound_keeps_sessions comp p message s) as Hk.
  destruct (handle_bound areAround comp p message s) as [result s'].
  simpl in Hk. by case_decide.
Qed.

(** ** Invariants of every run *)

Lemma exclusive_step s s' : exclusive s → step areAround s s' → exclusive s'.
Proof.
  intros Hex Hstep.
  destruct Hstep as [c s _|c s _|c m s _|token ch s|s|f s];
    intros k; specialize (Hex k).
  - done.
  - unfold peerDisconnected, computerDisconnected.
    destruct (find_client c (pendingClients s)) as [[i [k0 v]]|]; simpl; [|done].
    destruct Hex as [?|Hk]; [by left|right].
    rewrite lookup_delete. by case_decide.
  - destruct (characters s !! c) as [p|] eqn:Hc.
    { destruct (processMessage_bound c p m s Hc) as (-> & -> & _). done. }
    unfold processMessage. rewrite Hc.
    case_decide; [done|].
    destruct (pendingLogins s !! (readString 32 m).1) as [p|] eqn:Hl; simpl.
    + destruct Hex as [?|?]; [left|by right].
      rewrite lookup_delete. by case_decide.
    + destruct (find_client c (pendingClients s)); simpl; [done|].
      rewrite map_insert_new_lookup. case_decide; [subst k; by left|done].
  - unfold registerGameClient.
    destruct (pendingClients s !! token) as [c|] eqn:Hc; simpl.
    + destruct Hex as [?|?]; [by left|right].
      rewrite lookup_delete. by case_decide.
    + rewrite map_insert_new_lookup. case_decide; [subst k; by right|done].
  - simpl. destruct Hex as [Hl|?]; [left|by right].
    by rewrite lookup_omap, Hl.
  - done.
Qed.

Lemma reachable_exclusive s : reachable areAround s → exclusive s.
Proof.
  induction 1 as [w|s s' _ IH Hstep].
  - intros k. by left.
  - by eapply exclusive_step.
Qed.

Lemma deduplicated_delete (m : gmap string nat) k :
  (∀ k1 k2 c, m !! k1 = Some c → m !! k2 = Some c → k1 = k2) →
  ∀ k1 k2 c, delete k m !! k1 = Some c → delete k m !! k2 = Some c → k1 = k2.
Proof.
  intros Hd k1 k2 c H1%lookup_delete_Some H2%lookup_delete_Some.
  eapply Hd; [apply H1|apply H2].
Qed.

Lemma deduplicated_step s s' :
  deduplicated s → step areAround s s' → deduplicated s'.
Proof.
  intros Hd Hstep.
  destruct Hstep as [c s _|c s _|c m s _|token ch s|s|f s]; unfold deduplicated.
  - done.
  - unfold peerDisconnected, computerDisconnected.
    destruct (find_client c (pendingClients s)) as [[i [k0 v]]|]; simpl; [|done].
    by apply deduplicated_delete.
  - destruct (characters s !! c) as [p|] eqn:Hc.
    { destruct (processMessage_bound c p m s Hc) as (_ & -> & _). done. }
    unfold processMessage. rewrite Hc.
    case_decide; [done|].
    destruct (pendingLogins s !! (readString 32 m).1) as [p|] eqn:Hl; simpl; [done|].
    destruct (find_client c (pendingClients s)) eqn:Hf; simpl; [done|].
    rewrite find_client_None in Hf.
    intros k1 k2 c'. rewrite !map_insert_new_lookup.
    destruct (pendingClients s !! (readString 32 m).1) as [c0|] eqn:Hk; simpl.
    + repeat case_decide; subst; intros; simplify_eq;
        first [done | by eapply Hd].
    + repeat case_decide; subst; intros; simplify_eq;
        first [done | by eapply Hd | by destruct (Hf k1) | by destruct (Hf k2)].
  - unfold registerGameClient.
    destruct (pendingClients s !! token) as [c|] eqn:Hc; simpl; [|done].
    by apply deduplicated_delete.
  - done.
  - done.
Qed.

Lemma reachable_deduplicated s : reachable areAround s → deduplicated s.
Proof.
  induction 1 as [w|s s' _ IH Hstep].
  - intros k1 k2 c Hk. simpl in Hk. by rewrite lookup_empty in Hk.
  - by eapply deduplicated_step.
Qed.

Lemma outdate_Some p q :
  (1 ≤ timeout p ≤ 300)%Z →
  outdate p = Some q ↔
    timeout p ≠ 1%Z ∧ q = {| character := character p; timeout := timeout p - 1 |}.
Proof.
  intros Hp. unfold outdate.
  rewrite to_int_small by lia.
  case_decide; split; intros Hq; try done.
  - destruct Hq; lia.
  - split; [lia|congruence].
  - destruct Hq as [_ ->]. done.
Qed.

Lemma outdate_None p :
  (1 ≤ timeout p ≤ 300)%Z → outdate p = None ↔ timeout p = 1%Z.
Proof.
  intros Hp. unfold outdate.
  rewrite to_int_small by lia.
  case_decide; split; intros Hq; try done; lia.
Qed.

Lemma timeouts_in_range_step s s' :
  timeouts_in_range s → step areAround s s' → timeouts_in_range s'.
Proof.
  intros Ht Hstep.
  destruct Hstep as [c s _|c s _|c m s _|token ch s|s|f s]; unfold timeouts_in_range.
  - done.
  - unfold peerDisconnected, computerDisconnected.
    by destruct (find_client c (pendingClients s)) as [[i [k0 v]]|].
  - destruct (characters s !! c) as [p|] eqn:Hc.
    { destruct (processMessage_bound c p m s Hc) as (-> & _). done. }
    unfold processMessage. rewrite Hc.
    case_decide; [done|].
    destruct (pendingLogins s !! (readString 32 m).1) as [p|] eqn:Hl; simpl.
    + intros k q [_ Hq]%lookup_delete_Some. by eapply Ht.
    + by destruct (find_client c (pendingClients s)).
  - unfold registerGameClient.
    destruct (pendingClients s !! token) as [c|] eqn:Hc; simpl; [done|].
    intros k q. rewrite map_insert_new_lookup.
    case_decide; [|by apply Ht].
    destruct (pendingLogins s !! token) as [q0|] eqn:Hq; simpl.
    + intros [= <-]. by eapply Ht.
    + intros [= <-]. simpl. lia.
  - simpl. intros k q. rewrite lookup_omap.
    destruct (pendingLogins s !! k) as [q0|] eqn:Hq; simpl; [|done].
    pose proof (Ht k q0 Hq) as Hr.
    intros [Hne ->]%outdate_Some; [|done]. simpl. lia.
  - done.
Qed.

Lemma reachable_timeouts_in_range s :
  reachable areAround s → timeouts_in_range s.
Proof.
  induction 1 as [w|s s' _ IH Hstep].
  - intros k p Hk. simpl in Hk. by rewrite lookup_empty in Hk.
  - by eapply timeouts_in_range_step.
Qed.

Lemma computerDisconnected_purges computer s :
  deduplicated s →
  ∀ token, pendingClients (computerDisconnected computer s) !! token ≠ Some computer.
Proof.
  intros Hd token. unfold computerDisconnected.
  destruct (find_client computer (pendingClients s)) as [[i [k v]]|] eqn:Hf; simpl.
  - apply find_client_Some in Hf as [_ Hk].
    intros [Hne Ht]%lookup_delete_Some.
    apply Hne. by eapply Hd.
  - by apply find_client_None.
Qed.

Lemma computerDisconnected_subset computer s token c :
  pendingClients (computerDisconnected computer s) !! token = Some c →
  pendingClients s !! token = Some c.
Proof.
  unfold computerDisconnected.
  destruct (find_client computer (pendingClients s)) as [[i [k v]]|]; simpl; [|done].
  by intros [_ ?]%lookup_delete_Some.
Qed.

Lemma computerDisconnected_clients computer s :
  clients (computerDisconnected computer s) = clients s.
Proof.
  unfold computerDisconnected.
  by destruct (find_client computer (pendingClients s)) as [[i [k v]]|].
Qed.

Lemma computerDisconnected_characters computer s :
  characters (computerDisconnected computer s) = delete computer (characters s).
Proof.
  unfold computerDisconnected.
  by destruct (find_client computer (pendingClients s)) as [[i [k v]]|].
Qed.

Lemma registry_consistent_step s s' :
  deduplicated s → registry_consistent s → step areAround s s' →
  registry_consistent s'.
Proof.
  intros Hd (Hnd & Hp & Hc) Hstep.
  destruct Hstep as [c s Hfresh|c s Hin|c m s Hin|token ch s|s|f s];
    unfold registry_consistent.
  - simpl. split_and!.
    + apply NoDup_app. split_and!; [done| |apply NoDup_singleton].
      intros x Hx ->%list_elem_of_singleton. done.
    + intros k c' Hk. apply elem_of_app. left. by eapply Hp.
    + intros c' [p [_ Hc']%lookup_delete_Some]. apply elem_of_app. left.
      apply Hc. by eexists.
  - unfold peerDisconnected, with_clients; cbn [clients pendingClients characters].
    rewrite computerDisconnected_clients.
    split_and!.
    + by apply NoDup_filter.
    + intros k c' Hk. apply list_elem_of_filter. split.
      * intros ->. by eapply (computerDisconnected_purges c s).
      * eapply Hp. by eapply computerDisconnected_subset.
    + intros c' [p Hc']. apply list_elem_of_filter.
      rewrite computerDisconnected_characters in Hc'.
      apply lookup_delete_Some in Hc' as [Hne Hold].
      split; [done|]. apply Hc. by eexists.
  - destruct (characters s !! c) as [p|] eqn:Hch.
    { destruct (processMessage_bound c p m s Hch) as (_ & -> & -> & ->). done. }
    unfold processMessage. rewrite Hch.
    case_decide; [done|].
    destruct (pendingLogins s !! (readString 32 m).1) as [p|] eqn:Hl; simpl.
    + split_and!; [done..|].
      intros c' [q Hq]. apply lookup_partial_alter_Some in Hq as [[-> _]|[_ Hq]]; [done|].
      apply Hc. by eexists.
    + destruct (find_client c (pendingClients s)); simpl; [done|].
      split_and!; [done| |done].
      intros k c'. rewrite map_insert_new_lookup. case_decide; [|by apply Hp].
      destruct (pendingClients s !! (readString 32 m).1) as [c0|] eqn:Hk; simpl.
      * intros [= <-]. by eapply Hp.
      * by intros [= <-].
  - unfold registerGameClient.
    destruct (pendingClients s !! token) as [c|] eqn:Hk; simpl; [|done].
    split_and!; [done| |].
    + intros k c' [_ ?]%lookup_delete_Some. by eapply Hp.
    + intros c' [q Hq]. apply lookup_partial_alter_Some in Hq as [[-> _]|[_ Hq]].
      * by eapply Hp.
      * apply Hc. by eexists.
  - done.
  - done.
Qed.

Lemma reachable_registry_consistent s :
  reachable areAround s → registry_consistent s.
Proof.
  induction 1 as [w|s s' Hs IH Hstep].
  - split_and!; simpl.
    + apply NoDup_nil_2.
    + intros k c Hk. by rewrite lookup_empty in Hk.
    + intros c [p Hp]. by rewrite lookup_empty in Hp.
  - eapply registry_consistent_step; [|done..].
    by eapply reachable_deduplicated.
Qed.

(** ** The rendezvous *)

(** C1, handoff first: when neither map knows [token] and [comp] has no
    character, [registerGameClient token id] followed by [comp]'s connect
    message for [token] leaves [comp] with the character [id], hands exactly
    one message to [comp]'s [send], the connect response with status OK, and
    leaves [token] in neither map.  Nothing else changes. *)
Theorem handoff_then_connect token (id : nat) comp message s :
  pendingLogins s !! token = None →
  pendingClients s !! token = None →
  characters s !! comp = None →
  is_connect token message →
  let s' :=
    processMessage areAround comp message
      (registerGameClient token (Some id) s) in
  characters s' !! comp = Some id
  ∧ sent s' = sent s ++ [(comp, [OShort GPMSG_CONNECT_RESPONSE; OByte ERRMSG_OK])]
  ∧ pendingLogins s' !! token = None
  ∧ pendingClients s' !! token = None
  ∧ pendingLogins s' = pendingLogins s
  ∧ pendingClients s' = pendingClients s.
Proof.
  intros Hl Hp Hc [Hid Htok]. unfold registerGameClient. rewrite Hp.
  unfold processMessage, with_pendingLogins, map_insert_new. simpl.
  rewrite Hl, Hc, Hid.
  rewrite decide_False by (by intros Hne; apply Hne).
  rewrite Htok, lookup_insert_eq. simpl. split_and!.
  - apply lookup_partial_alter_eq.
  - done.
  - apply lookup_delete_eq.
  - done.
  - by apply delete_insert_id.
  - done.
Qed.

(** C2, connect first: when neither map knows [token], [comp] has no
    character and no entry of [pendingClients] points to it, [comp]'s connect
    message for [token] sends nothing and makes [comp] wait under [token];
    the following [registerGameClient token id] leaves [comp] with the
    character [id], hands exactly one message to [comp]'s [send], the
    connect response with status OK, and removes the entry for [token]. *)
Theorem connect_then_handoff token (id : nat) comp message s :
  pendingLogins s !! token = None →
  pendingClients s !! token = None →
  (∀ k, pendingClients s !! k ≠ Some comp) →
  characters s !! comp = None →
  is_connect token message →
  let s1 := processMessage areAround comp message s in
  let s2 := registerGameClient token (Some id) s1 in
  sent s1 = sent s
  ∧ pendingClients s1 !! token = Some comp
  ∧ characters s2 !! comp = Some id
  ∧ sent s2 = sent s ++ [(comp, [OShort GPMSG_CONNECT_RESPONSE; OByte ERRMSG_OK])]
  ∧ pendingClients s2 !! token = None
  ∧ pendingClients s2 = pendingClients s
  ∧ pendingLogins s2 = pendingLogins s.
Proof.
  intros Hl Hp Hfree Hc [Hid Htok].
  apply find_client_None in Hfree.
  unfold processMessage. rewrite Hc, Hid.
  rewrite decide_False by (by intros Hne; apply Hne).
  rewrite Htok, Hl, Hfree.
  unfold registerGameClient. cbn [pendingClients with_pendingClients].
  assert (map_insert_new token comp (pendingClients s) !! token = Some comp) as Hnew.
  { rewrite map_insert_new_lookup, decide_True by done. by rewrite Hp. }
  rewrite Hnew. simpl. split_and!.
  - done.
  - done.
  - apply lookup_partial_alter_eq.
  - done.
  - apply lookup_delete_eq.
  - unfold map_insert_new. rewrite Hp. by apply delete_insert_id.
  - done.
Qed.

(** C3, exclusivity: in every state the server can reach, whatever the
    sequence of connects, disconnects, messages, hand-overs, sweeps and
    changes to the players, no token has an entry in [pendingLogins] and an
    entry in [pendingClients] at once. *)
Theorem exclusivity s token :
  reachable areAround s →
  ¬ (is_Some (pendingLogins s !! token) ∧ is_Some (pendingClients s !! token)).
Proof.
  intros Hr [[p Hp] [c Hc]].
  destruct (reachable_exclusive s Hr token); congruence.
Qed.

(** C6, one entry per connection: in every reachable state no computer is
    the value of two entries of [pendingClients]; and in any state, a connect
    message from a character-less computer that is already waiting, for a
    token that has no pending login, changes nothing at all: no entry is
    added and nothing is sent, however often it is repeated. *)
Theorem connection_dedup s :
  reachable areAround s →
  deduplicated s
  ∧ (∀ comp token message,
       characters s !! comp = None →
       waiting comp s →
       pendingLogins s !! token = None →
       is_connect token message →
       processMessage areAround comp message s = s).
Proof.
  intros Hr. split; [by apply reachable_deduplicated|].
  intros comp token message Hc [k Hk] Hl [Hid Htok].
  unfold processMessage. rewrite Hc, Hid.
  rewrite decide_False by (by intros Hne; apply Hne).
  rewrite Htok, Hl.
  destruct (find_client comp (pendingClients s)) eqn:Hf; [done|].
  rewrite find_client_None in Hf. by destruct (Hf k).
Qed.

(** C7, disconnect cleanup: in every reachable state,
    [computerDisconnected computer] leaves no entry of [pendingClients],
    under any token, that points to [computer]; the entries of the other
    computers stay. *)
Theorem disconnect_cleanup s computer :
  reachable areAround s →
  (∀ token,
     pendingClients (computerDisconnected computer s) !! token ≠ Some computer)
  ∧ (∀ token other,
       other ≠ computer →
       pendingClients (computerDisconnected computer s) !! token = Some other
       ↔ pendingClients s !! token = Some other).
Proof.
  intros Hr. split.
  - apply computerDisconnected_purges. by apply reachable_deduplicated.
  - intros token other Hne. split; [apply computerDisconnected_subset|].
    unfold computerDisconnected.
    destruct (find_client computer (pendingClients s)) as [[i [k v]]|] eqn:Hf;
      simpl; [|done].
    apply find_client_Some in Hf as [_ Hk].
    intros Ht. apply lookup_delete_Some. split; [|done].
    intros ->. congruence.
Qed.

(** C9, silence towards the unauthenticated: for a computer without a
    character, a message whose identifier is not [PGMSG_CONNECT] changes
    nothing, so nothing is sent; and a connect message whose token has no
    pending login sends nothing either. *)
Theorem unauthenticated_silence comp message s :
  characters s !! comp = None →
  (getId message ≠ PGMSG_CONNECT → processMessage areAround comp message s = s)
  ∧ (getId message = PGMSG_CONNECT →
     pendingLogins s !! (readString 32 message).1 = None →
     sent (processMessage areAround comp message s) = sent s).
Proof.
  intros Hc. unfold processMessage. rewrite Hc. split.
  - intros Hne. by rewrite decide_True.
  - intros Hid Hl. rewrite decide_False by (by intros Hne; apply Hne).
    rewrite Hl. by destruct (find_client comp (pendingClients s)).
Qed.

(** C10, token collision: in every reachable state, [registerGameClient]
    for a token that already has a pending login changes nothing: the
    pending login keeps its character and its timeout, the new character is
    dropped and nothing is sent. *)
Theorem handoff_collision s token p ch :
  reachable areAround s →
  pendingLogins s !! token = Some p →
  registerGameClient token ch s = s.
Proof.
  intros Hr Hp. unfold registerGameClient.
  destruct (reachable_exclusive s Hr token) as [Hl|Hc]; [congruence|].
  rewrite Hc. unfold with_pendingLogins, map_insert_new. rewrite Hp.
  by destruct s.
Qed.

(** ** Expiry *)

Lemma removeOutdatedPending_lookup s k :
  timeouts_in_range s →
  pendingLogins (removeOutdatedPending s) !! k =
    match pendingLogins s !! k with
    | Some p =>
        if decide (timeout p = 1)%Z then None
        else Some {| character := character p; timeout := timeout p - 1 |}
    | None => None
    end.
Proof.
  intros Ht. simpl. rewrite lookup_omap.
  destruct (pendingLogins s !! k) as [p|] eqn:Hp; simpl; [|done].
  pose proof (Ht k p Hp) as Hr. case_decide.
  - by apply outdate_None.
  - by apply outdate_Some.
Qed.

Lemma ticks_reachable n s :
  reachable areAround s → reachable areAround (ticks n s).
Proof.
  revert s. induction n as [|n IH]; intros s Hr; simpl; [done|].
  apply IH. eapply reachable_step; [done|]. apply step_tick.
Qed.

Lemma ticks_only_sweep n s :
  keeps_sessions (with_pendingLogins (λ _, pendingLogins s) (ticks n s)) s
  ∧ sent (ticks n s) = sent s
  ∧ world (ticks n s) = world s.
Proof.
  revert s. induction n as [|n IH]; intros s; simpl; [done|].
  destruct (IH (removeOutdatedPending s)) as ((_ & ? & ? & ?) & ? & ?).
  done.
Qed.

Lemma ticks_lookup n s k p :
  timeouts_in_range s →
  pendingLogins s !! k = Some p →
  pendingLogins (ticks n s) !! k =
    if decide (Z.of_nat n < timeout p)%Z
    then Some {| character := character p; timeout := timeout p - Z.of_nat n |}
    else None.
Proof.
  revert s p. induction n as [|n IH]; intros s p Ht Hp.
  - pose proof (Ht k p Hp). simpl. rewrite decide_True by lia.
    rewrite Hp, Z.sub_0_r. by destruct p.
  - assert (timeouts_in_range (removeOutdatedPending s)) as Ht'.
    { eapply timeouts_in_range_step; [done|apply step_tick]. }
    pose proof (Ht k p Hp) as Hr.
    pose proof (removeOutdatedPending_lookup s k Ht) as Hk. rewrite Hp in Hk.
    cbn [ticks]. case_decide as H1.
    + rewrite decide_False by lia.
      clear IH. revert Hk. generalize (removeOutdatedPending s). clear.
      induction n as [|n IH]; intros s Hk; simpl; [done|].
      apply IH. simpl. by rewrite lookup_omap, Hk.
    + rewrite (IH _ _ Ht' Hk). simpl.
      repeat case_decide; try lia; [|done].
      do 2 f_equal. lia.
Qed.

(** C5, expiry timing: in a reachable state where neither map knows
    [token], [registerGameClient] creates a pending login with timeout 300
    and sends nothing.  One sweep takes exactly one tick off every pending
    login and erases exactly those that were down to their last tick.  So
    the new login is there after every number of sweeps below 300, with that
    many ticks taken off (after 299 sweeps one tick is left), it is gone
    after 300 sweeps and stays gone, and no number of sweeps sends
    anything. *)
Theorem expiry_timing s token ch :
  reachable areAround s →
  pendingLogins s !! token = None →
  pendingClients s !! token = None →
  let s0 := registerGameClient token ch s in
  pendingLogins s0 !! token = Some {| character := ch; timeout := 300 |}
  ∧ sent s0 = sent s
  ∧ (∀ k p,
       pendingLogins s !! k = Some p →
       pendingLogins (removeOutdatedPending s) !! k =
         if decide (timeout p = 1)%Z then None
         else Some {| character := character p; timeout := timeout p - 1 |})
  ∧ (∀ k,
       pendingLogins s !! k = None →
       pendingLogins (removeOutdatedPending s) !! k = None)
  ∧ (∀ n,
       n < 300 →
       pendingLogins (ticks n s0) !! token =
         Some {| character := ch; timeout := 300 - Z.of_nat n |})
  ∧ pendingLogins (ticks 299 s0) !! token = Some {| character := ch; timeout := 1 |}
  ∧ (∀ n, 300 ≤ n → pendingLogins (ticks n s0) !! token = None)
  ∧ (∀ n, sent (ticks n s0) = sent s).
Proof.
  intros Hr Hl Hc s0.
  assert (reachable areAround s0) as Hr0.
  { eapply reachable_step; [done|]. apply step_register. }
  pose proof (reachable_timeouts_in_range s Hr) as Ht.
  pose proof (reachable_timeouts_in_range s0 Hr0) as Ht0.
  assert (pendingLogins s0 !! token = Some {| character := ch; timeout := 300 |})
    as Hnew.
  { unfold s0, registerGameClient. rewrite Hc. simpl.
    rewrite map_insert_new_lookup, decide_True by done. by rewrite Hl. }
  assert (sent s0 = sent s) as Hsent.
  { unfold s0, registerGameClient. by rewrite Hc. }
  split_and!.
  - done.
  - done.
  - intros k p Hp. rewrite removeOutdatedPending_lookup by done. by rewrite Hp.
  - intros k Hk. rewrite removeOutdatedPending_lookup by done. by rewrite Hk.
  - intros n Hn. rewrite (ticks_lookup n s0 token _ Ht0 Hnew). simpl.
    rewrite decide_True by lia. done.
  - by rewrite (ticks_lookup 299 s0 token _ Ht0 Hnew).
  - intros n Hn. rewrite (ticks_lookup n s0 token _ Ht0 Hnew). simpl.
    rewrite decide_False by lia. done.
  - intros n. destruct (ticks_only_sweep n s0) as (_ & -> & _). done.
Qed.

(** ** Broadcast *)

Lemma deliveries_NoDup {A} `{EqDecision A} (x : A) (l : list A) :
  NoDup l → x ∈ l → length (filter (λ d, d = x) l) = 1.
Proof.
  induction 1 as [|y l Hy Hnd IH]; intros Hx.
  - by apply elem_of_nil in Hx.
  - rewrite filter_cons. case_decide as Hd.
    + subst y. simpl. f_equal.
      destruct (filter (λ d, d = x) l) as [|z l'] eqn:E; [done|].
      assert (z ∈ filter (λ d, d = x) l) as Hz by (rewrite E; left).
      apply list_elem_of_filter in Hz as [-> Hz]. done.
    + apply elem_of_cons in Hx as [->|Hx]; [done|]. by apply IH.
Qed.

(** C8, proximity broadcast: when [computer] plays [speaker] and no computer
    is listed twice, [sayAround] changes nothing but the sent messages and
    appends to them the say message, carrying the speaker's name and the
    text, once for each listed computer whose character is on the speaker's
    map and around the speaker's position, in list order.  So every such
    computer is handed the message exactly once, and nothing is handed to
    any other computer: none to a computer without a character, none to a
    character on another map. *)
Theorem proximity_broadcast computer (speaker : nat) text s :
  characters s !! computer = Some speaker →
  NoDup (clients s) →
  let s' := sayAround areAround computer text s in
  let msg := say_message (getName (world s) speaker) text in
  let reached :=
    hears areAround (getMapId (world s) speaker) (getXY (world s) speaker) s in
  let new := (λ i, (i, msg)) <$> filter reached (clients s) in
  only_sends s s'
  ∧ sent s' = sent s ++ new
  ∧ msg = [OShort GPMSG_SAY; OString (getName (world s) speaker); OString text]
  ∧ (∀ i, i ∈ clients s → reached i → deliveries i msg new = 1)
  ∧ (∀ i m, (i, m) ∈ new → m = msg ∧ i ∈ clients s ∧ reached i)
  ∧ (∀ i m, characters s !! i = None → (i, m) ∉ new)
  ∧ (∀ i (listener : nat) m,
       characters s !! i = Some listener →
       getMapId (world s) listener ≠ getMapId (world s) speaker →
       (i, m) ∉ new).
Proof.
  intros Hc Hnd s' msg reached new.
  assert (∀ i m, (i, m) ∈ new → m = msg ∧ i ∈ clients s ∧ reached i) as Hnew.
  { intros i m (j & [= -> ->] & Hj)%list_elem_of_fmap.
    apply list_elem_of_filter in Hj as [? ?]. done. }
  split_and!.
  - apply sayAround_only_sends.
  - unfold s', sayAround. rewrite Hc. apply sayAround_loop_spec.
  - done.
  - intros i Hi Hr. unfold deliveries. apply deliveries_NoDup.
    + apply NoDup_fmap_2; [by intros ?? [=]|]. by apply NoDup_filter.
    + apply list_elem_of_fmap. exists i. split; [done|].
      by apply list_elem_of_filter.
  - done.
  - intros i m Hi Hin. destruct (Hnew i m Hin) as (_ & _ & (l & Hl & _)).
    congruence.
  - intros i l m Hi Hmap Hin.
    destruct (Hnew i m Hin) as (_ & _ & (l' & Hl & Hm & _)).
    congruence.
Qed.

(** ** How long a binding lasts *)

(** A computer that has a character and is not waiting under any token
    keeps that character, and stays out of [pendingClients], for as long as
    it is connected. *)
Lemma binding_kept_step s s' comp (p : nat) :
  step areAround s s' →
  comp ∈ clients s → comp ∈ clients s' →
  characters s !! comp = Some p → ¬ waiting comp s →
  characters s' !! comp = Some p ∧ ¬ waiting comp s'.
Proof.
  intros Hstep Hin Hin' Hc Hw.
  destruct Hstep as [c s Hfresh|c s _|c m s _|token ch s|s|f s].
  - assert (c ≠ comp) by (by intros ->). simpl.
    by rewrite lookup_delete_ne.
  - unfold peerDisconnected, with_clients in Hin'. cbn [clients] in Hin'.
    apply list_elem_of_filter in Hin' as [Hne _]. split.
    + unfold peerDisconnected, with_clients. cbn [characters].
      rewrite computerDisconnected_characters. by rewrite lookup_delete_ne.
    + intros [k Hk]. apply Hw. exists k.
      by eapply (computerDisconnected_subset c s).
  - destruct (characters s !! c) as [q|] eqn:Hq.
    { destruct (processMessage_bound c q m s Hq) as (_ & Hp & -> & _).
      split; [done|]. unfold waiting. by rewrite Hp. }
    assert (c ≠ comp) by (intros ->; congruence).
    unfold processMessage. rewrite Hq.
    case_decide; [done|].
    destruct (pendingLogins s !! (readString 32 m).1) as [q|] eqn:Hl; simpl.
    + by rewrite lookup_partial_alter_ne.
    + destruct (find_client c (pendingClients s)); simpl; [done|].
      split; [done|]. intros [k Hk]. simpl in Hk.
      rewrite map_insert_new_lookup in Hk. case_decide.
      * destruct (pendingClients s !! (readString 32 m).1) as [c0|] eqn:Hk';
          simpl in Hk; simplify_eq. apply Hw. by eexists.
      * apply Hw. by exists k.
  - unfold registerGameClient.
    destruct (pendingClients s !! token) as [c|] eqn:Hk; simpl; [|done].
    assert (c ≠ comp) by (intros ->; apply Hw; by exists token).
    rewrite lookup_partial_alter_ne by done. split; [done|].
    intros [k Hk']. simpl in Hk'.
    apply lookup_delete_Some in Hk' as [_ Hk']. apply Hw. by exists k.
  - done.
  - done.
Qed.

End Properties.

(** * Worked examples on the sample world *)

Lemma one_connected_reachable : reachable Sample.near Sample.one_connected.
Proof.
  eapply reachable_step; [apply reachable_initial|].
  apply step_connect. vm_compute. by intros ?%elem_of_nil.
Qed.

Lemma one_waiting_reachable : reachable Sample.near Sample.one_waiting.
Proof.
  eapply reachable_step; [apply one_connected_reachable|].
  apply step_message. vm_compute. left.
Qed.

Lemma one_announced_reachable : reachable Sample.near Sample.one_announced.
Proof.
  eapply reachable_step; [apply one_connected_reachable|].
  apply step_register.
Qed.

Lemma matched_reachable : reachable Sample.near Sample.matched.
Proof.
  eapply reachable_step.
  - eapply reachable_step; [apply one_waiting_reachable|].
    apply (step_register Sample.near "T2" (Some 0)).
  - apply step_message. vm_compute. left.
Qed.

(** Token T1 is announced for player 0, then computer 1 presents it. *)
Lemma handoff_then_connect_example :
  let s' :=
    processMessage Sample.near 1 (Sample.connect "T1")
      (registerGameClient "T1" (Some 0) Sample.one_connected) in
  characters s' !! 1 = Some 0
  ∧ sent s' = [(1, [OShort GPMSG_CONNECT_RESPONSE; OByte ERRMSG_OK])]
  ∧ pendingLogins s' !! "T1" = None
  ∧ pendingClients s' !! "T1" = None
  ∧ pendingLogins s' = ∅
  ∧ pendingClients s' = ∅.
Proof.
  apply (handoff_then_connect Sample.near "T1" 0 1 (Sample.connect "T1")
           Sample.one_connected); [reflexivity..|split; reflexivity].
Defined.

(** Computer 1 presents token T2, then T2 is announced for player 1. *)
Lemma connect_then_handoff_example :
  let s1 := processMessage Sample.near 1 (Sample.connect "T2") Sample.one_connected in
  let s2 := registerGameClient "T2" (Some 1) s1 in
  sent s1 = []
  ∧ pendingClients s1 !! "T2" = Some 1
  ∧ characters s2 !! 1 = Some 1
  ∧ sent s2 = [(1, [OShort GPMSG_CONNECT_RESPONSE; OByte ERRMSG_OK])]
  ∧ pendingClients s2 !! "T2" = None
  ∧ pendingClients s2 = ∅
  ∧ pendingLogins s2 = ∅.
Proof.
  apply (connect_then_handoff Sample.near "T2" 1 1 (Sample.connect "T2")
           Sample.one_connected); [reflexivity..| |reflexivity|split; reflexivity].
  intros k. simpl. by rewrite lookup_empty.
Defined.

(** While computer 1 waits under T4, T4 has no pending login. *)
Lemma exclusivity_example :
  ¬ (is_Some (pendingLogins Sample.one_waiting !! "T4")
     ∧ is_Some (pendingClients Sample.one_waiting !! "T4")).
Proof.
  apply (exclusivity Sample.near Sample.one_waiting "T4").
  apply one_waiting_reachable.
Defined.

(** Token T3 is announced for player 2 and never presented. *)
Lemma expiry_timing_example :
  let s0 := registerGameClient "T3" (Some 2) Sample.one_connected in
  pendingLogins s0 !! "T3" = Some {| character := Some 2; timeout := 300 |}
  ∧ pendingLogins (ticks 299 s0) !! "T3" = Some {| character := Some 2; timeout := 1 |}
  ∧ pendingLogins (ticks 300 s0) !! "T3" = None
  ∧ sent (ticks 300 s0) = [].
Proof.
  destruct (expiry_timing Sample.near Sample.one_connected "T3" (Some 2)
              one_connected_reachable eq_refl eq_refl)
    as (Hnew & _ & _ & _ & _ & Hlast & Hgone & Hsilent).
  split_and!; [exact Hnew|exact Hlast|exact (Hgone 300 (le_n 300))|exact (Hsilent 300)].
Defined.

(** Computer 1, waiting under T4, presents T5 as well: nothing happens. *)
Lemma connection_dedup_example :
  deduplicated Sample.one_waiting
  ∧ processMessage Sample.near 1 (Sample.connect "T5") Sample.one_waiting
    = Sample.one_waiting.
Proof.
  destruct (connection_dedup Sample.near Sample.one_waiting one_waiting_reachable)
    as [Hd Hsame].
  split; [exact Hd|].
  apply (Hsame 1 "T5" (Sample.connect "T5")).
  - reflexivity.
  - exists "T4". reflexivity.
  - reflexivity.
  - split; reflexivity.
Defined.

(** Computer 1 disconnects while waiting under T4. *)
Lemma disconnect_cleanup_example :
  pendingClients Sample.one_waiting !! "T4" = Some 1
  ∧ pendingClients (computerDisconnected 1 Sample.one_waiting) !! "T4" ≠ Some 1.
Proof.
  split; [reflexivity|].
  apply (disconnect_cleanup Sample.near Sample.one_waiting 1 one_waiting_reachable).
Defined.

(** A says hi: A's and B's computers get the message, once each; C is too
    far away and D is on another map. *)
Lemma proximity_broadcast_example :
  let hi := [OShort GPMSG_SAY; OString "A"; OString "hi"] in
  sent (sayAround Sample.near 1 "hi" Sample.four_bound) = [(1, hi); (2, hi)].
Proof.
  destruct (proximity_broadcast Sample.near 1 0 "hi" Sample.four_bound)
    as (_ & Hsent & _).
  - reflexivity.
  - apply (bool_decide_unpack _). vm_compute. exact I.
  - rewrite Hsent. vm_compute. reflexivity.
Defined.

(** A character-less computer talks before it has logged in. *)
Lemma unauthenticated_silence_example :
  processMessage Sample.near 1
    {| Sample.id := PGMSG_SAY; Sample.text := "hi"; Sample.numbers := [] |}
    Sample.one_connected
  = Sample.one_connected.
Proof.
  apply (unauthenticated_silence Sample.near 1
           {| Sample.id := PGMSG_SAY; Sample.text := "hi"; Sample.numbers := [] |}
           Sample.one_connected); [reflexivity|discriminate].
Defined.

(** Token T3, pending for player 2, is announced again for player 0. *)
Lemma handoff_collision_example :
  registerGameClient "T3" (Some 0) Sample.one_announced = Sample.one_announced.
Proof.
  apply (handoff_collision Sample.near Sample.one_announced "T3"
           {| character := Some 2; timeout := 300 |} (Some 0)
           one_announced_reachable).
  reflexivity.
Defined.

(** C4, a binding that does not last: computer 1 waits under T4, logs in as
    player 0 with the announced token T2 and is answered OK; its entry under
    T4 stays behind.  When T4 is announced for player 1, the same computer,
    still connected, is given player 1 as its character and answered OK a
    second time. *)
Theorem rebinding_after_match :
  reachable Sample.near Sample.matched
  ∧ characters Sample.matched !! 1 = Some 0
  ∧ pendingClients Sample.matched !! "T4" = Some 1
  ∧ step Sample.near Sample.matched Sample.rematched
  ∧ characters Sample.rematched !! 1 = Some 1
  ∧ clients Sample.rematched = [1]
  ∧ sent Sample.rematched =
      [(1, [OShort GPMSG_CONNECT_RESPONSE; OByte ERRMSG_OK]);
       (1, [OShort GPMSG_CONNECT_RESPONSE; OByte ERRMSG_OK])].
Proof.
  split_and!; try (vm_compute; reflexivity).
  - apply matched_reachable.
  - apply step_register.
Qed.

(** * Further properties of the handler *)

(** ** The order of the keys *)

Lemma string_compare_refl (a : string) : String.compare a a = Eq.
Proof.
  induction a as [|c a IH]; simpl; [done|].
  unfold Ascii.compare. by rewrite N.compare_refl.
Qed.

Lemma string_compare_lt_trans (a b c : string) :
  String.compare a b = Lt → String.compare b c = Lt → String.compare a c = Lt.
Proof.
  revert b c. induction a as [|x a IH]; intros [|y b] [|z c]; simpl; try done.
  unfold Ascii.compare.
  destruct (N.compare_spec (Ascii.N_of_ascii x) (Ascii.N_of_ascii y)) as [Exy|Lxy|Gxy];
    [|intros _|done].
  - rewrite Exy.
    destruct (N.compare (Ascii.N_of_ascii y) (Ascii.N_of_ascii z)); [apply IH|done|done].
  - destruct (N.compare_spec (Ascii.N_of_ascii y) (Ascii.N_of_ascii z)) as [Eyz|Lyz|Gyz];
      [intros _|intros _|done].
    + rewrite <- Eyz. by apply N.compare_lt_iff in Lxy as ->.
    + assert (Ascii.N_of_ascii x < Ascii.N_of_ascii z)%N as Hxz by lia.
      by apply N.compare_lt_iff in Hxz as ->.
Qed.

Lemma string_leb_spec (a b : string) :
  String.leb a b = true ↔ String.compare a b = Lt ∨ a = b.
Proof.
  unfold String.leb. split.
  - destruct (String.compare a b) eqn:E; [|by left|done].
    right. by apply String.compare_eq_iff.
  - intros [->| ->]; [done|]. by rewrite string_compare_refl.
Qed.

#[global] Instance key_le_trans {V} : Transitive (@key_le V).
Proof.
  intros a b c. unfold key_le. rewrite !string_leb_spec.
  intros [Hab|Hab] [Hbc|Hbc].
  - left. by eapply string_compare_lt_trans.
  - left. by rewrite <- Hbc.
  - left. by rewrite Hab.
  - right. by rewrite Hab.
Qed.

#[global] Instance key_le_total {V} : Total (@key_le V).
Proof. intros a b. apply String.leb_total. Qed.

Lemma in_order_sorted {V} (m : gmap string V) :
  StronglySorted key_le (in_order m).
Proof. apply StronglySorted_merge_sort; apply _. Qed.

(** The entry [find_client] yields has the least key among the entries of
    [computer]. *)
Lemma find_client_least computer (m : gmap string nat) i k v :
  find_client computer m = Some (i, (k, v)) →
  ∀ k', m !! k' = Some computer → String.leb k k' = true.
Proof.
  unfold find_client. intros (Hi & Hv & Hbefore)%list_find_Some k' Hk'.
  simpl in Hv. subst v.
  apply elem_of_in_order, list_elem_of_lookup in Hk' as [j Hj].
  pose proof (in_order_sorted m) as Hs.
  rewrite <- (take_drop_middle _ _ _ Hi) in Hs.
  apply StronglySorted_app in Hs as (_ & _ & Hs).
  apply StronglySorted_cons in Hs as [Hall _].
  destruct (decide (j < i)) as [Hlt|Hge].
  { by destruct (Hbefore j (k', computer) Hj Hlt). }
  destruct (decide (j = i)) as [->|Hne].
  { rewrite Hi in Hj. injection Hj as ->. apply string_leb_spec. by right. }
  rewrite Forall_forall in Hall.
  apply (Hall (k', computer)).
  apply list_elem_of_lookup. exists (j - S i).
  rewrite lookup_drop. rewrite <- Hj. f_equal. lia.
Qed.

Section Coverage.
Context {W M : Type} `{!PlayerStore W} `{!MessageReader M}.
Context (areAround : Z → Z → Z → Z → bool).

Implicit Types (s : State W) (token : string) (ch : PlayerPtr).
Implicit Types (computer comp : GameClientPtr) (message : M).

(** ** Disconnecting *)

Lemma computerDisconnected_frame computer s :
  pendingLogins (computerDisconnected computer s) = pendingLogins s
  ∧ sent (computerDisconnected computer s) = sent s
  ∧ world (computerDisconnected computer s) = world s.
Proof.
  unfold computerDisconnected.
  by destruct (find_client computer (pendingClients s)) as [[i [k v]]|].
Qed.

(** X1: in any state, [computerDisconnected] leaves [pendingClients] as it
    is when no entry points to the computer; otherwise it erases exactly one
    entry, the one with the least token among those that point to it (the
    loop stops at its first hit).  It removes the computer's character and
    touches nothing else. *)
Theorem disconnect_erases_first computer s :
  let s' := computerDisconnected computer s in
  (¬ waiting computer s → pendingClients s' = pendingClients s)
  ∧ (waiting computer s →
     ∃ k, pendingClients s !! k = Some computer
          ∧ (∀ k', pendingClients s !! k' = Some computer → String.leb k k' = true)
          ∧ pendingClients s' = delete k (pendingClients s))
  ∧ characters s' = delete computer (characters s)
  ∧ pendingLogins s' = pendingLogins s
  ∧ clients s' = clients s
  ∧ sent s' = sent s
  ∧ world s' = world s.
Proof.
  unfold computerDisconnected.
  destruct (find_client computer (pendingClients s)) as [[i [k v]]|] eqn:Hf; simpl.
  - pose proof (find_client_least _ _ _ _ _ Hf) as Hleast.
    apply find_client_Some in Hf as [_ Hk].
    split_and!; try done.
    + intros Hw. destruct Hw. by exists k.
    + intros _. by exists k.
  - split_and!; try done.
    intros [k Hk]. rewrite find_client_None in Hf. by destruct (Hf k).
Qed.

(** X2: after a computer that waited under [token] has disconnected, the
    hand-over of [token] finds nobody: it sends nothing, binds nobody and
    leaves a pending login with timeout 300 for whoever presents the token
    next. *)
Theorem handoff_after_disconnect s computer token ch :
  reachable areAround s →
  pendingClients s !! token = Some computer →
  let s' := registerGameClient token ch (peerDisconnected computer s) in
  pendingLogins s' !! token = Some {| character := ch; timeout := 300 |}
  ∧ pendingClients s' !! token = None
  ∧ sent s' = sent s
  ∧ characters s' = delete computer (characters s).
Proof.
  intros Hr Hk s'.
  pose proof (reachable_deduplicated areAround s Hr) as Hd.
  assert (pendingLogins s !! token = None) as Hl.
  { destruct (reachable_exclusive areAround s Hr token); congruence. }
  assert (pendingClients (peerDisconnected computer s) !! token = None) as Hgone.
  { unfold peerDisconnected, with_clients. cbn [pendingClients].
    destruct (pendingClients (computerDisconnected computer s) !! token)
      as [c|] eqn:Hc; [|done].
    pose proof (computerDisconnected_subset _ _ _ _ Hc) as Hc'.
    assert (c = computer) as -> by congruence.
    by destruct (computerDisconnected_purges computer s Hd token). }
  destruct (computerDisconnected_frame computer s) as (Hlog & Hsent & _).
  pose proof (computerDisconnected_characters computer s) as Hch.
  assert (pendingLogins (peerDisconnected computer s) = pendingLogins s) as Hlog' by done.
  assert (sent (peerDisconnected computer s) = sent s) as Hsent' by done.
  assert (characters (peerDisconnected computer s) = delete computer (characters s))
    as Hch' by done.
  unfold s', registerGameClient. rewrite Hgone.
  revert Hgone Hlog' Hsent' Hch'. generalize (peerDisconnected computer s).
  intros s1 Hgone Hlog' Hsent' Hch'. simpl.
  rewrite map_insert_new_lookup, decide_True by done.
  rewrite Hlog', Hl. done.
Qed.

(** ** Addressed delivery *)

(** X3: [sendTo] changes nothing but the sent messages.  When no listed
    computer has [beingPtr] as its character it changes nothing at all;
    otherwise it hands [msg] exactly once, to the first listed computer
    whose character is [beingPtr], even if later ones have it too. *)
Theorem sendTo_delivery (beingPtr : PlayerPtr) (msg : list OutField) s :
  only_sends s (sendTo beingPtr msg s)
  ∧ ((∀ i, i ∈ clients s → characters s !! i ≠ beingPtr) →
     sendTo beingPtr msg s = s)
  ∧ (∀ i, i ∈ clients s → characters s !! i = beingPtr →
     ∃ n j,
       clients s !! n = Some j
       ∧ characters s !! j = beingPtr
       ∧ (∀ n' j', clients s !! n' = Some j' → n' < n →
            characters s !! j' ≠ beingPtr)
       ∧ sent (sendTo beingPtr msg s) = sent s ++ [(j, msg)]).
Proof.
  unfold sendTo.
  destruct (list_find (λ i, characters s !! i = beingPtr) (clients s))
    as [[n j]|] eqn:Hf.
  - apply list_find_Some in Hf as (Hn & Hj & Hbefore).
    split_and!; [done| |].
    + intros Hno. destruct (Hno j); [|done]. by eapply list_elem_of_lookup_2.
    + intros i _ _. exists n, j. done.
  - rewrite list_find_None, Forall_forall in Hf.
    split_and!; [done|done|].
    intros i Hi Hc. by destruct (Hf i Hi).
Qed.

(** ** Messages of a computer that has a character *)

Lemma handle_bound_cases comp (p : nat) message s :
  let r := (handle_bound areAround comp p message s).1 in
  let s1 := (handle_bound areAround comp p message s).2 in
  match getId message with
  | PGMSG_SAY =>
      r = [] ∧ s1 = sayAround areAround comp (readString (-1) message).1 s
  | PGMSG_PICKUP =>
      r = [OShort GPMSG_PICKUP_RESPONSE; OByte ERRMSG_OK]
      ∧ s1 = with_world (addInventory p (to_unsigned (readLong message).1)) s
  | PGMSG_USE_ITEM =>
      r = [OShort GPMSG_USE_RESPONSE;
           OByte (if hasItem (world s) p (to_unsigned (readLong message).1)
                  then ERRMSG_OK else ERRMSG_FAILURE)]
      ∧ s1 = s
  | PGMSG_WALK => r = [] ∧ sent s1 = sent s
  | PGMSG_EQUIP =>
      (∃ status, r = [OShort GPMSG_EQUIP_RESPONSE; OByte status])
      ∧ sent s1 = sent s
  | _ => r = [OShort XXMSG_INVALID] ∧ s1 = s
  end.
Proof.
  unfold handle_bound. destruct (getId message); simpl; try done.
  - by destruct (hasItem _ _ _).
  - destruct (readShort message) as [x m1]. by destruct (readShort m1).
  - destruct (readLong message) as [i m1]. destruct (readByte m1).
    destruct (equip _ _ _ _) as [ok w]. simpl. split; [|done]. by eexists.
Qed.

(** X4: a computer that has a character is answered with the bare
    invalid-message identifier, and nothing else happens, whenever it sends
    an identifier the [switch] has no case for.  That includes
    [PGMSG_CONNECT]: a second login attempt never reaches the rendezvous. *)
Theorem unknown_opcode_reply comp (p : nat) message s :
  characters s !! comp = Some p →
  getId message ∉ handled_ids →
  processMessage areAround comp message s
  = send comp [OShort XXMSG_INVALID] s.
Proof.
  intros Hc Hid. unfold processMessage. rewrite Hc.
  pose proof (handle_bound_cases comp p message s) as Hcases.
  destruct (handle_bound areAround comp p message s) as [r s1]. simpl in Hcases.
  destruct (getId message);
    try (exfalso; apply Hid; unfold handled_ids; by repeat constructor);
    destruct Hcases as [-> ->]; done.
Qed.

(** X5: whatever a computer that has a character sends, both pending maps,
    every character and the list of computers stay as they are.  A say
    message is answered by the broadcast alone; a walk message sends
    nothing; every other message is answered by exactly one message, to the
    sender, headed by a response identifier or the invalid-message
    identifier.  The players change at most on pickup, walk and equip. *)
Theorem bound_message_effects comp (p : nat) message s :
  characters s !! comp = Some p →
  let s' := processMessage areAround comp message s in
  keeps_sessions s s'
  ∧ (getId message = PGMSG_SAY →
     s' = sayAround areAround comp (readString (-1) message).1 s)
  ∧ (getId message = PGMSG_WALK → sent s' = sent s)
  ∧ (getId message ≠ PGMSG_SAY → getId message ≠ PGMSG_WALK →
     ∃ id rest,
       sent s' = sent s ++ [(comp, OShort id :: rest)]
       ∧ id ∈ [GPMSG_PICKUP_RESPONSE; GPMSG_USE_RESPONSE;
               GPMSG_EQUIP_RESPONSE; XXMSG_INVALID])
  ∧ (getId message ∉ [PGMSG_PICKUP; PGMSG_WALK; PGMSG_EQUIP] →
     world s' = world s).
Proof.
  intros Hc s'. split; [by eapply processMessage_bound|].
  unfold s', processMessage. rewrite Hc.
  pose proof (handle_bound_cases comp p message s) as Hcases.
  pose proof (sayAround_only_sends areAround comp (readString (-1) message).1 s)
    as (_ & _ & _ & _ & Hw).
  destruct (handle_bound areAround comp p message s) as [r s1]. simpl in Hcases.
  destruct (getId message) eqn:Hid;
    try destruct Hcases as [-> ->]; try destruct Hcases as [-> Hs1];
    try destruct Hcases as [[status ->] Hs1];
    simpl; (split_and!; [try done..|]);
    try (intros _ _; eexists _, _; split; [try rewrite Hs1; reflexivity|];
         by repeat constructor);
    try (intros Hno; exfalso; apply Hno; by repeat constructor);
    try done.
Qed.

(** ** Invariants of every run, continued *)

(** X6: in every reachable state no computer is listed twice, every entry
    of [pendingClients] points to a connected computer and every computer
    that has a character is connected: the handler never keeps a pointer to
    a deleted [GameClient]. *)
Theorem pending_clients_alive s :
  reachable areAround s →
  NoDup (clients s)
  ∧ (∀ token computer,
       pendingClients s !! token = Some computer → computer ∈ clients s)
  ∧ (∀ computer (p : nat),
       characters s !! computer = Some p → computer ∈ clients s).
Proof.
  intros Hr. destruct (reachable_registry_consistent areAround s Hr) as (Hnd & Hp & Hc).
  split_and!; [done|done|].
  intros computer p Hcp. apply Hc. by eexists.
Qed.

(** X7: a computer that connects at an address some earlier computer had
    starts without a character and without an entry in [pendingClients]:
    nothing of an earlier session is inherited through the address. *)
Theorem fresh_connection_clean s fresh :
  reachable areAround s →
  fresh ∉ clients s →
  let s' := peerConnected fresh s in
  fresh ∈ clients s'
  ∧ characters s' !! fresh = None
  ∧ ¬ waiting fresh s'.
Proof.
  intros Hr Hfresh s'.
  destruct (reachable_registry_consistent areAround s Hr) as (_ & Hp & _).
  split_and!.
  - simpl. apply elem_of_app. right. by apply list_elem_of_singleton.
  - simpl. apply lookup_delete_eq.
  - intros [k Hk]. simpl in Hk. apply Hfresh. by eapply Hp.
Qed.

(** X8: in every reachable state every pending login has between 1 and 300
    ticks left, so none outlives 300 sweeps: after 300 sweeps in a row
    [pendingLogins] is empty. *)
Theorem pending_logins_bounded s :
  reachable areAround s →
  (∀ token p, pendingLogins s !! token = Some p → (1 ≤ timeout p ≤ 300)%Z)
  ∧ pendingLogins (ticks 300 s) = ∅.
Proof.
  intros Hr. pose proof (reachable_timeouts_in_range areAround s Hr) as Ht.
  split; [done|].
  apply map_eq. intros k. rewrite lookup_empty.
  destruct (pendingLogins s !! k) as [p|] eqn:Hp.
  - rewrite (ticks_lookup areAround 300 s k p Ht Hp).
    pose proof (Ht k p Hp). rewrite decide_False by lia. done.
  - clear Hr Ht. revert s Hp. generalize 300.
    induction n as [|n IH]; intros s Hp; simpl; [done|].
    apply IH. simpl. by rewrite lookup_omap, Hp.
Qed.

(** X9: in a reachable state a pending login with [t] ticks left is still
    there after [n < t] sweeps, with the same character and [t - n] ticks
    left, and is gone after [t] or more sweeps; sweeps change nothing but
    [pendingLogins]. *)
Theorem login_countdown s token p n :
  reachable areAround s →
  pendingLogins s !! token = Some p →
  pendingLogins (ticks n s) !! token =
    (if decide (Z.of_nat n < timeout p)%Z
     then Some {| character := character p; timeout := timeout p - Z.of_nat n |}
     else None)
  ∧ pendingClients (ticks n s) = pendingClients s
  ∧ characters (ticks n s) = characters s
  ∧ clients (ticks n s) = clients s
  ∧ sent (ticks n s) = sent s
  ∧ world (ticks n s) = world s.
Proof.
  intros Hr Hp.
  pose proof (reachable_timeouts_in_range areAround s Hr) as Ht.
  destruct (ticks_only_sweep n s) as ((_ & ? & ? & ?) & ? & ?).
  split_and!; try done.
  by apply (ticks_lookup areAround).
Qed.

(** X10: a computer that has a character and no entry in [pendingClients]
    keeps that character, and stays out of [pendingClients], through every
    stretch of a run during which it stays connected. *)
Theorem binding_kept comp (p : nat) s s' :
  while_connected areAround comp s s' →
  comp ∈ clients s →
  characters s !! comp = Some p →
  ¬ waiting comp s →
  characters s' !! comp = Some p ∧ ¬ waiting comp s'.
Proof.
  unfold while_connected.
  induction 1 as [s|s s1 s' [Hstep Hin1] _ IH]; intros Hin Hc Hw; [done|].
  destruct (binding_kept_step areAround s s1 comp p Hstep Hin Hin1 Hc Hw).
  by apply IH.
Qed.

(** ** Two computers, one token *)

Lemma connect_matched comp message token p s :
  characters s !! comp = None →
  is_connect token message →
  pendingLogins s !! token = Some p →
  processMessage areAround comp message s
  = send comp connect_response
      (with_pendingLogins (delete token) (setCharacter comp (character p) s)).
Proof.
  intros Hc [Hid Htok] Hl. unfold processMessage. rewrite Hc, Hid.
  rewrite decide_False by (by intros H'; apply H').
  by rewrite Htok, Hl.
Qed.

Lemma connect_parked comp message token s :
  characters s !! comp = None →
  is_connect token message →
  pendingLogins s !! token = None →
  ¬ waiting comp s →
  processMessage areAround comp message s
  = with_pendingClients (map_insert_new token comp) s.
Proof.
  intros Hc [Hid Htok] Hl Hw. unfold processMessage. rewrite Hc, Hid.
  rewrite decide_False by (by intros H'; apply H').
  rewrite Htok, Hl.
  destruct (find_client comp (pendingClients s)) as [[i [k v]]|] eqn:Hf; [|done].
  apply find_client_Some in Hf as [_ Hk]. destruct Hw. by exists k.
Qed.

(** X11: when a token already has a pending client, a connect message for
    the same token from another character-less computer changes nothing:
    [std::map::insert] keeps the first entry, the second computer is not
    even recorded.  The hand-over of the token then binds and answers the
    first computer only. *)
Theorem second_presenter_ignored token (id : nat) comp other message s :
  pendingClients s !! token = Some other →
  other ≠ comp →
  pendingLogins s !! token = None →
  characters s !! comp = None →
  is_connect token message →
  let s1 := processMessage areAround comp message s in
  let s2 := registerGameClient token (Some id) s1 in
  s1 = s
  ∧ characters s2 !! other = Some id
  ∧ characters s2 !! comp = None
  ∧ sent s2 = sent s ++ [(other, [OShort GPMSG_CONNECT_RESPONSE; OByte ERRMSG_OK])]
  ∧ (∀ k, pendingClients s2 !! k = Some comp → pendingClients s !! k = Some comp).
Proof.
  intros Hk Hne Hl Hc [Hid Htok] s1 s2.
  assert (s1 = s) as Hsame.
  { unfold s1, processMessage. rewrite Hc, Hid.
    rewrite decide_False by (by intros H'; apply H').
    rewrite Htok, Hl.
    destruct (find_client comp (pendingClients s)); [done|].
    unfold with_pendingClients, map_insert_new. rewrite Hk. by destruct s. }
  unfold s2. rewrite Hsame. clear s1 s2 Hsame.
  unfold registerGameClient. rewrite Hk. simpl. split_and!.
  - done.
  - apply lookup_partial_alter_eq.
  - by rewrite lookup_partial_alter_ne.
  - done.
  - by intros k [_ ?]%lookup_delete_Some.
Qed.


(** ** What is sent *)






(** ** The grace period *)

(** X14: a token announced in a reachable state where nothing is pending
    for it is good for 299 sweeps.  A character-less computer that presents
    it after fewer than 300 sweeps gets the character and the OK response;
    one that presents it after 300 or more sweeps gets no answer and no
    character, and is recorded in [pendingClients] instead. *)
Theorem grace_period s token (id : nat) comp message n :
  reachable areAround s →
  pendingLogins s !! token = None →
  pendingClients s !! token = None →
  characters s !! comp = None →
  ¬ waiting comp s →
  is_connect token message →
  let s' :=
    processMessage areAround comp message
      (ticks n (registerGameClient token (Some id) s)) in
  (n < 300 →
   characters s' !! comp = Some id
   ∧ pendingLogins s' !! token = None
   ∧ sent s' = sent s ++ [(comp, [OShort GPMSG_CONNECT_RESPONSE; OByte ERRMSG_OK])])
  ∧ (300 ≤ n →
     characters s' !! comp = None
     ∧ pendingClients s' !! token = Some comp
     ∧ sent s' = sent s).
Proof.
  intros Hr Hl Hk Hc Hw Hm.
  set (s0 := registerGameClient token (Some id) s).
  assert (reachable areAround s0) as Hr0.
  { eapply reachable_step; [done|]. apply step_register. }
  pose proof (reachable_timeouts_in_range areAround s0 Hr0) as Ht0.
  assert (pendingLogins s0 !! token = Some {| character := Some id; timeout := 300 |}
          ∧ pendingClients s0 = pendingClients s
          ∧ characters s0 = characters s
          ∧ sent s0 = sent s) as (Hnew & Hk0 & Hc0 & Hsent0).
  { unfold s0, registerGameClient. rewrite Hk. simpl.
    rewrite map_insert_new_lookup, decide_True by done. by rewrite Hl. }
  destruct (ticks_only_sweep n s0) as ((_ & Hk1 & Hc1 & _) & Hsent1 & _).
  simpl in Hk1, Hc1.
  pose proof (ticks_lookup areAround n s0 token _ Ht0 Hnew) as Hlook.
  simpl in Hlook. revert Hk1 Hc1 Hsent1 Hlook.
  generalize (ticks n s0). intros s1 Hk1 Hc1 Hsent1 Hlook s'.
  assert (characters s1 = characters s) as Hc1' by congruence.
  assert (pendingClients s1 = pendingClients s) as Hk1' by congruence.
  assert (sent s1 = sent s) as Hsent1' by congruence.
  assert (characters s1 !! comp = None) as Hcomp by (by rewrite Hc1').
  split; intros Hn.
  - rewrite decide_True in Hlook by lia.
    unfold s'. rewrite (connect_matched comp message token _ s1 Hcomp Hm Hlook).
    simpl. split_and!.
    + apply lookup_partial_alter_eq.
    + apply lookup_delete_eq.
    + by rewrite Hsent1'.
  - rewrite decide_False in Hlook by lia.
    unfold s'. rewrite (connect_parked comp message token s1 Hcomp Hm Hlook).
    + simpl. rewrite map_insert_new_lookup, decide_True by done.
      rewrite Hk1', Hk, Hc1', Hsent1'. done.
    + intros [k Hk']. apply Hw. exists k. by rewrite <- Hk1'.
Qed.

(** ** The speaker *)

(** X15: [sayAround] does not skip the speaker: when the speaker's computer
    is listed once and the proximity test holds between the speaker's
    position and itself, the speaker's own computer is handed the say
    message exactly once. *)
Theorem speaker_hears_itself computer (speaker : nat) text s :
  characters s !! computer = Some speaker →
  computer ∈ clients s →
  NoDup (clients s) →
  areAround (getXY (world s) speaker).1 (getXY (world s) speaker).2
    (getXY (world s) speaker).1 (getXY (world s) speaker).2 = true →
  ∃ new,
    sent (sayAround areAround computer text s) = sent s ++ new
    ∧ deliveries computer (say_message (getName (world s) speaker) text) new = 1.
Proof.
  intros Hc Hin Hnd Hnear. unfold sayAround. rewrite Hc.
  eexists. split; [apply sayAround_loop_spec|].
  unfold deliveries. apply deliveries_NoDup.
  - apply NoDup_fmap_2; [by intros ?? [=]|]. by apply NoDup_filter.
  - apply list_elem_of_fmap. exists computer. split; [done|].
    apply list_elem_of_filter. split; [|done].
    exists speaker. done.
Qed.

End Coverage.

(** * Further worked examples *)

(** Computer 1 leaves while waiting under T4; T4 is announced afterwards. *)
Lemma handoff_after_disconnect_example :
  let s' := registerGameClient "T4" (Some 2) (peerDisconnected 1 Sample.one_waiting) in
  pendingLogins s' !! "T4" = Some {| character := Some 2; timeout := 300 |}
  ∧ pendingClients s' !! "T4" = None
  ∧ sent s' = []
  ∧ characters s' = ∅.
Proof.
  exact (handoff_after_disconnect Sample.near Sample.one_waiting 1 "T4" (Some 2)
           one_waiting_reachable eq_refl).
Defined.

(** Computer 1, playing player 0, tries to log in again. *)
Lemma unknown_opcode_reply_example :
  processMessage Sample.near 1 (Sample.connect "T9") Sample.one_bound
  = send 1 [OShort XXMSG_INVALID] Sample.one_bound.
Proof.
  apply (unknown_opcode_reply Sample.near 1 0 (Sample.connect "T9") Sample.one_bound).
  - reflexivity.
  - apply (bool_decide_unpack _). vm_compute. exact I.
Defined.

(** Computer 1, playing player 0, picks up item 7. *)
Lemma bound_message_effects_example :
  keeps_sessions Sample.one_bound
    (processMessage Sample.near 1 (Sample.pickup 7) Sample.one_bound).
Proof.
  exact (proj1 (bound_message_effects Sample.near 1 0 (Sample.pickup 7)
                  Sample.one_bound eq_refl)).
Defined.

(** The computer waiting under T4 is a connected one. *)
Lemma pending_clients_alive_example : 1 ∈ clients Sample.one_waiting.
Proof.
  exact (proj1 (proj2 (pending_clients_alive Sample.near Sample.one_waiting
                         one_waiting_reachable)) "T4" 1 eq_refl).
Defined.

(** A second computer connects while the first one waits. *)
Lemma fresh_connection_clean_example :
  let s' := peerConnected 2 Sample.one_waiting in
  2 ∈ clients s' ∧ characters s' !! 2 = None ∧ ¬ waiting 2 s'.
Proof.
  apply (fresh_connection_clean Sample.near Sample.one_waiting 2 one_waiting_reachable).
  apply (bool_decide_unpack _). vm_compute. exact I.
Defined.

(** No login is left 300 sweeps after T3 was announced. *)
Lemma pending_logins_bounded_example :
  pendingLogins (ticks 300 Sample.one_announced) = ∅.
Proof.
  exact (proj2 (pending_logins_bounded Sample.near Sample.one_announced
                  one_announced_reachable)).
Defined.

(** Ten sweeps after T3 was announced its login has 290 ticks left. *)
Lemma login_countdown_example :
  pendingLogins (ticks 10 Sample.one_announced) !! "T3"
  = Some {| character := Some 2; timeout := 290 |}.
Proof.
  exact (proj1 (login_countdown Sample.near Sample.one_announced "T3"
                  {| character := Some 2; timeout := 300 |} 10
                  one_announced_reachable eq_refl)).
Defined.

(** Computer 1 keeps player 0 through a sweep. *)
Lemma binding_kept_example :
  characters (removeOutdatedPending Sample.one_bound) !! 1 = Some 0
  ∧ ¬ waiting 1 (removeOutdatedPending Sample.one_bound).
Proof.
  apply (binding_kept Sample.near 1 0 Sample.one_bound).
  - apply rtc_once. split; [apply step_tick|]. vm_compute. left.
  - vm_compute. left.
  - reflexivity.
  - intros [k Hk]. vm_compute in Hk. discriminate Hk.
Defined.

(** Computer 2 presents T7 while computer 1 already waits under it. *)
Lemma second_presenter_ignored_example :
  let s1 := processMessage Sample.near 2 (Sample.connect "T7") Sample.first_waiting in
  let s2 := registerGameClient "T7" (Some 3) s1 in
  s1 = Sample.first_waiting
  ∧ characters s2 !! 1 = Some 3
  ∧ characters s2 !! 2 = None
  ∧ sent s2 = [(1, [OShort GPMSG_CONNECT_RESPONSE; OByte ERRMSG_OK])].
Proof.
  destruct (second_presenter_ignored Sample.near "T7" 3 2 1 (Sample.connect "T7")
              Sample.first_waiting) as (H1 & H2 & H3 & H4 & _).
  - reflexivity.
  - discriminate.
  - reflexivity.
  - reflexivity.
  - split; reflexivity.
  - split_and!; [exact H1|exact H2|exact H3|exact H4].
Defined.



(** Computer 1 presents T3 three hundred sweeps after it was announced. *)
Lemma grace_period_example :
  let s' :=
    processMessage Sample.near 1 (Sample.connect "T3")
      (ticks 300 (registerGameClient "T3" (Some 2) Sample.one_connected)) in
  characters s' !! 1 = None
  ∧ pendingClients s' !! "T3" = Some 1
  ∧ sent s' = [].
Proof.
  apply (grace_period Sample.near Sample.one_connected "T3" 2 1 (Sample.connect "T3") 300
           one_connected_reachable); try reflexivity.
  - intros [k Hk]. vm_compute in Hk. discriminate Hk.
  - split; reflexivity.
Defined.

(** A hears its own hi. *)
Lemma speaker_hears_itself_example :
  ∃ new,
    sent (sayAround Sample.near 1 "hi" Sample.four_bound)
    = sent Sample.four_bound ++ new
    ∧ deliveries 1 [OShort GPMSG_SAY; OString "A"; OString "hi"] new = 1.
Proof.
  refine (speaker_hears_itself Sample.near 1 0 "hi" Sample.four_bound
            eq_refl _ _ eq_refl).
  - vm_compute. left.
  - apply (bool_decide_unpack _). vm_compute. exact I.
Defined.
